(** * Zenit's Lua extension: pushing a prototype as a closure (lzenit.c)

    A shallow embedding of [lua/src/lzenit.c].  The file defines two
    functions, [pushlclosure_impl] and [luaZE_pushlclosure]; everything they
    call belongs to the wrapped Lua runtime (lgc.h, ldo.h, lfunc.h, lobject.h),
    which is modelled here from the specification of the shim.

    The interpreter is an explicit state record; a runtime service is a
    function from a state to a log of observations and an outcome, so that
    the order of the services a call performs, and every state the
    interpreter goes through, can be stated and proved. *)

From Stdlib Require Import ZArith List Bool Lia.
From stdpp Require Import base numbers option list gmap.

Local Open Scope Z_scope.

(** ** Status codes and values *)

(** Modelled from the spec: the causes of an internal fault.  The status a
    protected call reports for a fault is non-zero; 0 is the success
    sentinel.  (lua.h is not part of the fragment.) *)
Inductive errcode : Type :=
  | LUA_ERRRUN
  | LUA_ERRFILE
  | LUA_ERRSYNTAX
  | LUA_ERRMEM
  | LUA_ERRERR.

(** Modelled from the spec: the status code of each fault (lua.h); none is
    the success sentinel 0. *)
Definition status_of (e : errcode) : Z :=
  match e with
  | LUA_ERRRUN => 1
  | LUA_ERRFILE => 2
  | LUA_ERRSYNTAX => 3
  | LUA_ERRMEM => 4
  | LUA_ERRERR => 5
  end.

(** Heap objects are named by their address. *)
Abbreviation addr := positive (only parsing).

(** Modelled from the spec: a tagged value (lobject.h), as held by a stack
    slot or by a field of an object. *)
Inductive TObject : Type :=
  | TNil
  | TBoolean (b : bool)
  | TNumber (n : Z)
  | TTable (h : addr)
  | TFunction (cl : addr).

(** Modelled from the spec: a function prototype (lobject.h), the compiled
    form of a function body: bytecode, constants and metadata. *)
Record Proto : Type := mkProto {
  code : list Z;
  k : list TObject;
  nups : Z;
  numparams : Z;
  is_vararg : bool;
  maxstacksize : Z
}.

(** Modelled from the spec: a Lua closure (lobject.h; [cl->l] in the
    source).  Its prototype reference [p] is a pointer, unset until the
    caller stores one; [g] is the environment the closure runs in, held as a
    tagged reference. *)
Record LClosure : Type := mkLClosure {
  isC : bool;
  nupvalues : Z;
  g : TObject;
  p : option addr;
  upvals : list (option addr)
}.

(** Modelled from the spec: the objects the collector tracks (lstate.h). *)
Inductive GCObject : Type :=
  | GCProto (f : Proto)
  | GCClosure (c : LClosure)
  | GCTable (t : list (TObject * TObject)).

(** ** The interpreter instance *)

(** Modelled from the spec: the interpreter instance owns its value stack
    (an array of slots, a slot being unwritten until a value is stored in
    it), the stack-top pointer, its table of globals, its heap with the
    collector's accounting, and its lock.  [errorJmp] is the number of
    protected calls in progress, [gcfault] the fault the collector's next
    step runs into, if any, and [memlimit] the heap limit of the host
    allocator. *)
Record lua_State : Type := mkState {
  stack : list (option TObject);
  base : nat;
  top : nat;
  l_gt : TObject;
  errorJmp : nat;
  heap : gmap positive GCObject;
  nblocks : Z;
  GCthreshold : Z;
  memlimit : Z;
  gcfault : option errcode;
  lockcount : nat
}.

Definition set_stack (L : lua_State) (s : list (option TObject)) : lua_State :=
  mkState s (base L) (top L) (l_gt L) (errorJmp L) (heap L) (nblocks L)
          (GCthreshold L) (memlimit L) (gcfault L) (lockcount L).

Definition set_top (L : lua_State) (t : nat) : lua_State :=
  mkState (stack L) (base L) t (l_gt L) (errorJmp L) (heap L) (nblocks L)
          (GCthreshold L) (memlimit L) (gcfault L) (lockcount L).

Definition set_errorJmp (L : lua_State) (j : nat) : lua_State :=
  mkState (stack L) (base L) (top L) (l_gt L) j (heap L) (nblocks L)
          (GCthreshold L) (memlimit L) (gcfault L) (lockcount L).

Definition set_heap (L : lua_State) (h : gmap positive GCObject) : lua_State :=
  mkState (stack L) (base L) (top L) (l_gt L) (errorJmp L) h (nblocks L)
          (GCthreshold L) (memlimit L) (gcfault L) (lockcount L).

Definition set_nblocks (L : lua_State) (n : Z) : lua_State :=
  mkState (stack L) (base L) (top L) (l_gt L) (errorJmp L) (heap L) n
          (GCthreshold L) (memlimit L) (gcfault L) (lockcount L).

Definition set_GCthreshold (L : lua_State) (n : Z) : lua_State :=
  mkState (stack L) (base L) (top L) (l_gt L) (errorJmp L) (heap L) (nblocks L)
          n (memlimit L) (gcfault L) (lockcount L).

Definition set_lockcount (L : lua_State) (n : nat) : lua_State :=
  mkState (stack L) (base L) (top L) (l_gt L) (errorJmp L) (heap L) (nblocks L)
          (GCthreshold L) (memlimit L) (gcfault L) n.

(** The number of values on the stack of the running function. *)
Definition lua_gettop (L : lua_State) : nat := (top L - base L)%nat.

(** ** Observations, outcomes and the monad of runtime services *)

(** What a service does to the shared state, in the order it does it. *)
Inductive event : Type :=
  | EvLock
  | EvUnlock
  | EvCheckGC
  | EvGCStep
  | EvAlloc (a : addr)
  | EvSetProto (cl : addr) (pr : addr)
  | EvStore (slot : nat) (v : TObject)
  | EvIncrTop
  | EvThrow (e : errcode).

(** A service returns to its caller ([Ok]), jumps to the innermost protected
    call with a fault ([Throw]), or, when no protected call is in progress,
    aborts the host ([Panic]). *)
Inductive outcome (A : Type) : Type :=
  | Ok (a : A) (L : lua_State)
  | Throw (e : errcode) (L : lua_State)
  | Panic.

Arguments Ok {A} a L.
Arguments Throw {A} e L.
Arguments Panic {A}.

(** An observation is an event with the state right after it. *)
Definition obs : Type := event * lua_State.

Definition M (A : Type) : Type := lua_State -> list obs * outcome A.

Definition log {A} (r : list obs * outcome A) : list obs := fst r.
Definition res {A} (r : list obs * outcome A) : outcome A := snd r.
Definition events {A} (r : list obs * outcome A) : list event := map fst (log r).

Definition ret {A} (a : A) : M A := fun L => ([], Ok a L).

Definition bind {A B} (m : M A) (f : A -> M B) : M B := fun L =>
  match m L with
  | (t, Ok a L') => let (t', r) := f a L' in (t ++ t', r)
  | (t, Throw e L') => (t, Throw e L')
  | (t, Panic) => (t, Panic)
  end.

(** The services are sequenced with stdpp's monad notations:
    [x ← m; f] and [m ;; f]. *)
#[global] Instance M_ret : MRet M := @ret.
#[global] Instance M_bind : MBind M := fun A B f m => bind m f.

(** Reading a field of the state ([L->top]), and one observed update. *)
Definition get {A} (f : lua_State -> A) : M A := fun L => ([], Ok (f L) L).

Definition step (ev : event) (f : lua_State -> lua_State) : M unit :=
  fun L => ([(ev, f L)], Ok tt (f L)).

(** ** The services of the wrapped runtime *)

Section Runtime.

(** Modelled from the spec: the size in bytes of a closure with the given
    number of upvalue slots (the [sizeLclosure] macro of lfunc.h).  It
    depends on the platform's object layout, so it is left open. *)
Variable sizeLclosure : Z -> Z.

(** Modelled from the spec: raising an internal fault.  Control goes to the
    protected call in progress; with none, the fault is an unrecoverable
    abort (ldo.c is not part of the fragment). *)
Definition luaD_throw {A} (e : errcode) : M A := fun L =>
  match errorJmp L with
  | O => ([(EvThrow e, L)], Panic)
  | S _ => ([(EvThrow e, L)], Throw e L)
  end.

(** Modelled from the spec: the allocator (lmem.h).  A request that would
    take the bytes in use past the heap limit is an out-of-memory fault;
    otherwise the bytes are charged to the collector's account. *)
Definition luaM_malloc (size : Z) : M unit := fun L =>
  if memlimit L <? nblocks L + size then luaD_throw LUA_ERRMEM L
  else ([], Ok tt (set_nblocks L (nblocks L + size))).

(** Modelled from the spec: the bytes of allocation one pacing step pays
    for (lgc.c). *)
Definition GCSTEPSIZE : Z := 1024.

(** Modelled from the spec: one pacing step of the collector, a bounded
    unit of bookkeeping that settles the allocation debt by moving the
    threshold past the bytes in use.  The step can run into an internal
    fault (an out-of-memory condition, for one); which, if any, is the
    state's [gcfault].  The collector itself is out of scope. *)
Definition luaC_step : M unit := fun L =>
  match gcfault L with
  | Some e => luaD_throw e L
  | None => step EvGCStep (fun L => set_GCthreshold L (nblocks L + GCSTEPSIZE)) L
  end.

(** Modelled from the spec: the collector's pacing check (the [luaC_checkGC]
    macro of lgc.h): a step is due when the bytes in use have reached the
    threshold. *)
Definition luaC_checkGC : M unit :=
  step EvCheckGC id ;;
  due ← get (fun L => GCthreshold L <=? nblocks L);
  if due : bool then luaC_step else mret tt.

(** Modelled from the spec: [gt(L)] (lstate.h) points at the slot of the
    state holding the table of globals. *)
Definition gt (L : lua_State) : TObject := l_gt L.

(** Modelled from the spec: registering a new object with the collector
    ([luaC_link], lgc.c), under an address no object has. *)
Definition luaC_link (o : GCObject) : M addr := fun L =>
  let a := fresh (dom (heap L)) in
  let L' := set_heap L (<[a := o]> (heap L)) in
  ([(EvAlloc a, L')], Ok a L').

(** Modelled from the spec: allocating a closure (lfunc.c) with [nelems]
    upvalue slots, bound to the environment [e] points at.  The closure
    belongs to the collector from its allocation on; its prototype
    reference is left unset. *)
Definition luaF_newLclosure (nelems : Z) (e : lua_State -> TObject) : M addr :=
  luaM_malloc (sizeLclosure nelems) ;;
  env ← get e;
  luaC_link (GCClosure {| isC := false; nupvalues := nelems; g := env;
                          p := None;
                          upvals := replicate (Z.to_nat nelems) None |}).

(** The assignment [cl->l.p = proto]: a store into the closure at [cl]. *)
Definition with_p (c : LClosure) (proto : addr) : LClosure :=
  {| isC := isC c; nupvalues := nupvalues c; g := g c; p := Some proto;
     upvals := upvals c |}.

Definition assign_l_p (cl : addr) (proto : addr) : M unit :=
  step (EvSetProto cl proto) (fun L =>
    match heap L !! cl with
    | Some (GCClosure c) =>
        set_heap L (<[cl := GCClosure (with_p c proto)]> (heap L))
    | _ => L
    end).

(** Modelled from the spec: [setclvalue(o, cl)] (lobject.h) writes the
    closure as a tagged value into the slot [o]. *)
Definition setclvalue (o : nat) (cl : addr) : M unit :=
  step (EvStore o (TFunction cl))
       (fun L => set_stack L (<[o := Some (TFunction cl)]> (stack L))).

(** Modelled from the spec: [incr_top(L)] (ldo.h) advances the stack-top
    pointer by one slot. *)
Definition incr_top : M unit :=
  step EvIncrTop (fun L => set_top L (S (top L))).

(** Modelled from the spec: acquiring the interpreter's lock ([lua_lock], a
    macro of the runtime's configuration); the lock is held by count. *)
Definition lua_lock : M unit :=
  step EvLock (fun L => set_lockcount L (S (lockcount L))).

(** Modelled from the spec: releasing the interpreter's lock
    ([lua_unlock]). *)
Definition lua_unlock : M unit :=
  step EvUnlock (fun L => set_lockcount L (pred (lockcount L))).

(** Modelled from the spec: the protected-call primitive (ldo.c).  It
    captures a restore point, runs [f] on [ud] and, on an internal fault,
    restores the interpreter's state and returns the fault's status;
    otherwise it returns 0. *)
Definition luaD_rawrunprotected {U} (f : U -> M unit) (ud : U) : M Z := fun L =>
  match f ud (set_errorJmp L (S (errorJmp L))) with
  | (t, Ok _ L') => (t, Ok 0 (set_errorJmp L' (errorJmp L)))
  | (t, Throw e _) => (t, Ok (status_of e) L)
  | (t, Panic) => (t, Panic)
  end.

(** ** lzenit.c *)

Definition pushlclosure_impl (proto : addr) : M unit :=
  luaC_checkGC ;;
  cl ← luaF_newLclosure 0 gt;
  assign_l_p cl proto ;;
  o ← get top;
  setclvalue o cl ;;
  incr_top.

Definition luaZE_pushlclosure (proto : addr) : M bool :=
  lua_lock ;;
  status ← luaD_rawrunprotected pushlclosure_impl proto;
  lua_unlock ;;
  mret (status =? 0).

(** [n] successive calls with the same prototype, with their results. *)
Fixpoint push_many (n : nat) (proto : addr) : M (list bool) :=
  match n with
  | O => mret []
  | S n' =>
      b ← luaZE_pushlclosure proto;
      bs ← push_many n' proto;
      mret (b :: bs)
  end.

(** ** States the claims are about *)

(** Every slot below the stack-top pointer holds a value. *)
Definition slots_written (L : lua_State) : Prop :=
  forall i, (i < top L)%nat -> exists v, stack L !! i = Some (Some v).

(** A valid interpreter instance: the running function's frame lies below
    the top, the slot at the top exists, and the slots below it are
    written. *)
Definition valid_state (L : lua_State) : Prop :=
  (base L <= top L)%nat /\ (top L < length (stack L))%nat /\ slots_written L.

(** A valid prototype registered on the heap. *)
Definition registered (L : lua_State) (proto : addr) (f : Proto) : Prop :=
  heap L !! proto = Some (GCProto f).

(** The state right after [lua_lock], and the restore point a protected call
    starts from. *)
Definition locked (L : lua_State) : lua_State :=
  set_lockcount L (S (lockcount L)).

Definition protected (L : lua_State) : lua_State :=
  set_errorJmp L (S (errorJmp L)).

(** The closure [luaZE_pushlclosure] builds for [proto] in the state [L]. *)
Definition closure_of (L : lua_State) (proto : addr) : LClosure :=
  {| isC := false; nupvalues := 0; g := l_gt L; p := Some proto; upvals := [] |}.


Lemma unlock_locked (L : lua_State) :
  set_lockcount (set_lockcount L (S (lockcount L))) (lockcount L) = L.
Proof. destruct L; reflexivity. Qed.

(** ** Proof automation *)

Ltac unfold_run :=
  unfold luaZE_pushlclosure, luaD_rawrunprotected, pushlclosure_impl,
    luaC_checkGC, luaC_step, luaF_newLclosure, luaM_malloc, luaC_link,
    assign_l_p, setclvalue, incr_top, lua_lock, lua_unlock, luaD_throw,
    step, get, mbind, M_bind, bind, mret, M_ret, ret, gt.

Ltac split_alloc L :=
  destruct (memlimit L <? nblocks L + sizeLclosure 0) eqn:Hlimit; cbn.

(** Split a run on what decides it: whether a collector step is due, whether
    the step faults, and whether the closure fits under the heap limit. *)
Ltac run_cases L :=
  unfold_run; cbn;
  destruct (GCthreshold L <=? nblocks L) eqn:Hdue; cbn;
  [ let e := fresh "e" in
    destruct (gcfault L) as [e|] eqn:Hfault; cbn;
    [ destruct e; cbn | split_alloc L ]
  | split_alloc L ];
  rewrite ?lookup_insert_eq, ?insert_insert_eq, ?unlock_locked; cbn.

(** ** Basic facts *)


Lemma fresh_not_registered (h : gmap positive GCObject) (a : addr) (o : GCObject) :
  h !! a = Some o -> a <> fresh (dom h).
Proof.
  intros Ha ->. apply (is_fresh (dom h)). apply elem_of_dom. eauto.
Qed.

(** How the three kinds of update of the push sequence act on
    [slots_written]. *)
Lemma slots_written_frame (L L' : lua_State) :
  stack L' = stack L -> top L' = top L -> slots_written L -> slots_written L'.
Proof. unfold slots_written. intros -> ->. auto. Qed.

Lemma slots_written_store (L L' : lua_State) (v : TObject) :
  stack L' = <[top L := Some v]> (stack L) -> top L' = top L ->
  slots_written L -> slots_written L'.
Proof.
  unfold slots_written. intros -> -> H i Hi.
  rewrite list_lookup_insert_ne by lia. auto.
Qed.

Lemma slots_written_advance (L L' : lua_State) (v : TObject) :
  stack L' = <[top L := Some v]> (stack L) -> top L' = S (top L) ->
  (top L < length (stack L))%nat ->
  slots_written L -> slots_written L'.
Proof.
  unfold slots_written. intros -> -> Hroom H i Hi.
  destruct (decide (i = top L)) as [-> | Hne].
  - exists v. apply list_lookup_insert_eq, Hroom.
  - rewrite list_lookup_insert_ne by lia. apply H. lia.
Qed.

(** One call, in full: either the closure is pushed, or the state is the
    one before the call. *)
Lemma luaZE_pushlclosure_run (proto : addr) (L : lua_State) :
  let cl := fresh (dom (heap L)) in
  (exists L', res (luaZE_pushlclosure proto L) = Ok true L' /\
     top L' = S (top L) /\ base L' = base L /\ l_gt L' = l_gt L /\
     stack L' = <[top L := Some (TFunction cl)]> (stack L) /\
     heap L' = <[cl := GCClosure (closure_of L proto)]> (heap L) /\
     errorJmp L' = errorJmp L /\ lockcount L' = lockcount L)
  \/ res (luaZE_pushlclosure proto L) = Ok false L.
Proof.
  run_cases L; try (right; reflexivity);
    left; eexists; (split; [reflexivity | cbn; repeat split]).
Qed.

(** A fault of the push sequence leaves the stack, its top and the heap as
    they were, before any restoring by the protected call: every service
    that can fault runs before the sequence writes a slot. *)
Lemma pushlclosure_impl_fault (proto : addr) (L L' : lua_State) (e : errcode) :
  res (pushlclosure_impl proto L) = Throw e L' ->
  top L' = top L /\ stack L' = stack L /\ heap L' = heap L /\ base L' = base L.
Proof.
  run_cases L; destruct (errorJmp L); cbn; intros H; inversion H; subst;
    cbn; auto.
Qed.

(** The outcome of a sequence is the outcome of its second part, run from
    where the first part returned. *)
Lemma res_bind {A B} (m : M A) (f : A -> M B) (L : lua_State) :
  res (bind m f L) =
  match res (m L) with
  | Ok a L1 => res (f a L1)
  | Throw e L1 => Throw e L1
  | Panic => Panic
  end.
Proof.
  unfold res, bind. destruct (m L) as [t [a L1 | e L1 |]]; cbn; auto.
  destruct (f a L1); reflexivity.
Qed.



(** ** The claims *)

(** C1: for a valid interpreter instance and a prototype registered on its
    heap, a call that returns true leaves the stack one value deeper, and the
    value on top is a closure whose prototype reference is the prototype
    passed in. *)
Theorem push_returns_true_pushes_closure
    (proto : addr) (f : Proto) (L L' : lua_State) :
  valid_state L ->
  registered L proto f ->
  res (luaZE_pushlclosure proto L) = Ok true L' ->
  lua_gettop L' = S (lua_gettop L) /\
  exists cl c,
    stack L' !! (top L' - 1)%nat = Some (Some (TFunction cl)) /\
    heap L' !! cl = Some (GCClosure c) /\
    p c = Some proto.
Proof.
  intros (Hbase & Hroom & _) _ Hrun.
  destruct (luaZE_pushlclosure_run proto L)
    as [(L1 & Hres & Htop & Hb & _ & Hstack & Hheap & _) | Hres];
    rewrite Hres in Hrun; inversion Hrun; subst L1; clear Hrun.
  split.
  - unfold lua_gettop. rewrite Htop, Hb. lia.
  - exists (fresh (dom (heap L))), (closure_of L proto).
    rewrite Htop, Hstack, Hheap. replace (S (top L) - 1)%nat with (top L) by lia.
    rewrite list_lookup_insert_eq by exact Hroom.
    rewrite lookup_insert_eq. auto.
Qed.

(** C2: the call returns true exactly when the protected run of the push
    sequence completed without an internal fault, that is when the status
    the protected-call primitive returned is 0; every other status gives
    false. *)
Theorem result_is_status_zero (proto : addr) (L : lua_State) :
  exists status L1 b L',
    res (luaD_rawrunprotected pushlclosure_impl proto (locked L)) = Ok status L1 /\
    res (luaZE_pushlclosure proto L) = Ok b L' /\
    b = (status =? 0) /\
    (b = true <-> status = 0) /\
    (status <> 0 -> b = false) /\
    (status = 0 <->
     exists L2, res (pushlclosure_impl proto (protected (locked L))) = Ok tt L2).
Proof.
  unfold locked, protected.
  run_cases L; do 4 eexists;
    (split; [reflexivity |]); (split; [reflexivity |]); (split; [reflexivity |]);
    cbn; (split; [| split]); try (split; intros); try intros; eauto;
    try congruence; try lia; try discriminate;
    try (match goal with H : ex _ |- _ => destruct H as [? H]; discriminate H end).
Qed.

(** C3: a call that returns false leaves the interpreter as it was before
    the call: the stack-top pointer and the stack depth are unchanged, no
    slot is written and no other part of the state differs.  The top and
    the slots are the same in every state the failing call goes through as
    well, so nothing is pushed and taken back. *)
Theorem push_returns_false_leaves_stack
    (proto : addr) (L L' : lua_State) :
  res (luaZE_pushlclosure proto L) = Ok false L' ->
  top L' = top L /\ lua_gettop L' = lua_gettop L /\ stack L' = stack L /\
  L' = L /\
  Forall (fun o => top (snd o) = top L /\ stack (snd o) = stack L)
         (log (luaZE_pushlclosure proto L)).
Proof.
  intros Hrun.
  assert (HL : L' = L).
  { destruct (luaZE_pushlclosure_run proto L) as [(L1 & Hres & _) | Hres];
      rewrite Hres in Hrun; inversion Hrun; subst; auto. }
  subst L'. do 4 (split; [reflexivity |]).
  revert Hrun.
  run_cases L; intros Hrun; try discriminate Hrun;
    repeat constructor.
Qed.

(** A request past the heap limit makes the call return false. *)
Lemma heap_limit_exhausted_returns_false (proto : addr) (L : lua_State) :
  memlimit L < nblocks L + sizeLclosure 0 ->
  res (luaZE_pushlclosure proto L) = Ok false L.
Proof.
  intros Hlim. apply Z.ltb_lt in Hlim.
  run_cases L; try reflexivity; congruence.
Qed.

(** C4: the call always returns a boolean to its caller, also from a state
    with no protected call in progress; a fault raised inside the sequence
    only makes the result false. *)
Theorem push_always_returns (proto : addr) (L : lua_State) :
  exists b L',
    res (luaZE_pushlclosure proto L) = Ok b L' /\
    (forall e, EvThrow e ∈ events (luaZE_pushlclosure proto L) -> b = false).
Proof.
  run_cases L; do 2 eexists; (split; [reflexivity |]);
    unfold events; cbn; intros e' He'; try reflexivity;
    repeat (apply elem_of_cons in He' as [He' | He']; [discriminate He' |]);
    apply elem_of_nil in He'; contradiction.
Qed.

(** C5: in every run of the push sequence the collector's pacing check is
    the first thing done, so it comes before the closure is allocated: no
    allocation is observed without the check before it. *)
Theorem gc_check_precedes_allocation (proto : addr) (L : lua_State) :
  (exists rest, events (pushlclosure_impl proto L) = EvCheckGC :: rest) /\
  (forall pre a post,
     events (pushlclosure_impl proto L) = pre ++ EvAlloc a :: post ->
     EvCheckGC ∈ pre).
Proof.
  unfold events.
  run_cases L; destruct (errorJmp L); cbn;
    (split; [eexists; reflexivity |]);
    intros pre a post H;
    (destruct pre as [|ev pre]; cbn in H; [discriminate H |]);
    injection H as <- _; apply list_elem_of_here.
Qed.

(** C6: the closure a successful call builds has no upvalue slot, its
    environment is the interpreter's table of globals, held by reference
    (the heap gains the closure and nothing else, so no table is copied),
    and its prototype field is the prototype passed in. *)
Theorem pushed_closure_shape (proto : addr) (L L' : lua_State) :
  res (luaZE_pushlclosure proto L) = Ok true L' ->
  exists cl c,
    EvAlloc cl ∈ events (luaZE_pushlclosure proto L) /\
    heap L !! cl = None /\
    heap L' !! cl = Some (GCClosure c) /\
    nupvalues c = 0 /\ upvals c = [] /\
    g c = gt L /\ gt L' = gt L /\
    p c = Some proto /\
    (forall a, a <> cl -> heap L' !! a = heap L !! a).
Proof.
  intros Hrun.
  exists (fresh (dom (heap L))), (closure_of L proto).
  assert (Hnew : heap L !! fresh (dom (heap L)) = None).
  { apply not_elem_of_dom, is_fresh. }
  revert Hrun. unfold events.
  run_cases L; intros Hrun; try discriminate Hrun;
    injection Hrun as <-; cbn;
    rewrite lookup_insert_eq;
    (split; [repeat first [apply list_elem_of_here | apply list_elem_of_further] |]);
    repeat split; auto;
    intros a Ha; rewrite lookup_insert_ne by congruence; reflexivity.
Qed.

(** C7: the prototype object is the same before the call, in every state
    the call goes through, and after it, whatever the call returns. *)
Theorem prototype_not_mutated (proto : addr) (f : Proto) (L : lua_State) :
  registered L proto f ->
  Forall (fun o => registered (snd o) proto f) (log (luaZE_pushlclosure proto L)) /\
  exists b L',
    res (luaZE_pushlclosure proto L) = Ok b L' /\ registered L' proto f.
Proof.
  unfold registered. intros Hreg.
  pose proof (fresh_not_registered _ _ _ Hreg) as Hne.
  run_cases L;
    (split; [repeat constructor | do 2 eexists; split; [reflexivity |]]);
    cbn; rewrite ?lookup_insert_ne by congruence; exact Hreg.
Qed.

(** C9: a call takes the lock first, releases it last and once, and holds
    it in every state in between, whether the protected sequence completes
    or faults; the lock count after the call is the one before it. *)
Theorem lock_balanced (proto : addr) (L : lua_State) :
  let inner := log (luaD_rawrunprotected pushlclosure_impl proto (locked L)) in
  exists b L',
    luaZE_pushlclosure proto L =
      ((EvLock, locked L) :: inner ++ [(EvUnlock, L')], Ok b L') /\
    Forall (fun o => fst o <> EvLock /\ fst o <> EvUnlock /\
                     lockcount (snd o) = S (lockcount L)) inner /\
    lockcount (locked L) = S (lockcount L) /\
    lockcount L' = lockcount L.
Proof.
  unfold locked.
  run_cases L; do 2 eexists; (split; [reflexivity |]);
    (split; [repeat constructor; cbn; discriminate | split; reflexivity]).
Qed.

(** C10: the push sequence writes the closure into the slot at the top
    before it advances the top: in every state the sequence goes through,
    each slot below the stack-top pointer holds a value, and the advance is
    never observed without the store into the old top slot before it. *)
Theorem store_precedes_advance (proto : addr) (L : lua_State) :
  slots_written L ->
  (top L < length (stack L))%nat ->
  Forall (fun o => slots_written (snd o)) (log (pushlclosure_impl proto L)) /\
  (forall pre post,
     events (pushlclosure_impl proto L) = pre ++ EvIncrTop :: post ->
     exists cl, EvStore (top L) (TFunction cl) ∈ pre).
Proof.
  intros Hw Hroom. unfold events.
  run_cases L; destruct (errorJmp L); cbn;
    (split;
     [ repeat constructor; cbn;
       first [ exact Hw
             | apply (slots_written_frame L); [reflexivity | reflexivity | exact Hw]
             | apply (slots_written_store L _ (TFunction (fresh (dom (heap L)))));
               [reflexivity | reflexivity | exact Hw]
             | apply (slots_written_advance L _ (TFunction (fresh (dom (heap L)))));
               [reflexivity | reflexivity | exact Hroom | exact Hw] ]
     | intros pre post H;
       repeat (destruct pre as [|? pre]; cbn in H;
               [ try discriminate H
               | first [ discriminate H | injection H as <- H ] ]);
       eexists;
       repeat first [ apply list_elem_of_here | apply list_elem_of_further ] ]).
Qed.


(** ** Further properties of lzenit.c *)

(** The number of calls of a sequence that returned true. *)
Definition successes (bs : list bool) : nat :=
  length (List.filter (fun b : bool => b) bs).



(** Where the wrapper reports false from a state with no protected call in
    progress, the push sequence run on its own aborts the host: the
    protected call is what turns the fault into a result. *)
Theorem unprotected_sequence_aborts (proto : addr) (L : lua_State) :
  errorJmp L = O ->
  res (luaZE_pushlclosure proto L) = Ok false L ->
  res (pushlclosure_impl proto L) = Panic.
Proof.
  intros Hj. unfold res at 2.
  run_cases L; rewrite ?Hj; cbn; intros Hrun;
    first [ reflexivity | discriminate Hrun ].
Qed.

(** Any number of successive calls return, each with its boolean, and the
    stack top has moved up by the number of calls that returned true. *)
Theorem push_many_counts (n : nat) (proto : addr) (L : lua_State) :
  exists bs L',
    res (push_many n proto L) = Ok bs L' /\
    length bs = n /\
    top L' = (top L + successes bs)%nat.
Proof.
  revert L. induction n as [|n IH]; intros L.
  - exists [], L. cbn. repeat split. unfold successes. cbn. lia.
  - cbn [push_many]. unfold mbind, M_bind. rewrite res_bind.
    destruct (luaZE_pushlclosure_run proto L)
      as [(L1 & Hres & Htop & _) | Hres]; rewrite Hres, res_bind.
    + destruct (IH L1) as (bs & L' & Hrun & Hlen & Ht).
      exists (true :: bs), L'. rewrite Hrun. cbn.
      split; [reflexivity |]. split; [lia |].
      unfold successes in *. cbn. lia.
    + destruct (IH L) as (bs & L' & Hrun & Hlen & Ht).
      exists (false :: bs), L'. rewrite Hrun. cbn.
      split; [reflexivity |]. split; [lia |].
      unfold successes in *. cbn. lia.
Qed.

End Runtime.

(** ** Concrete runs *)

(** A prototype for a function whose body returns nothing, an interpreter
    with one value on a stack of four slots, a heap holding the table of
    globals (at 1) and the prototype (at 2), and a closure size. *)
Definition P0 : Proto := mkProto [1; 2] [TNil] 0 0 false 2.

Definition L0 : lua_State :=
  {| stack := [Some (TNumber 7); None; None; None];
     base := 0; top := 1; l_gt := TTable 1; errorJmp := 0;
     heap := <[2%positive := GCProto P0]> (<[1%positive := GCTable []]> ∅);
     nblocks := 100; GCthreshold := 200; memlimit := 1000;
     gcfault := None; lockcount := 0 |}.

Definition sz (n : Z) : Z := 40 + 8 * n.

(** The same interpreter with its heap limit nearly reached, and with a
    collector step that is due and runs out of memory. *)
Definition L0_full : lua_State := set_nblocks L0 990.

Definition L0_gcfault : lua_State :=
  {| stack := stack L0; base := 0; top := 1; l_gt := TTable 1; errorJmp := 0;
     heap := heap L0; nblocks := 300; GCthreshold := 200; memlimit := 1000;
     gcfault := Some LUA_ERRMEM; lockcount := 0 |}.

Example push_events :
  events (luaZE_pushlclosure sz 2 L0) =
  [EvLock; EvCheckGC; EvAlloc 3; EvSetProto 3 2; EvStore 1 (TFunction 3);
   EvIncrTop; EvUnlock].
Proof. vm_compute. reflexivity. Qed.

Example push_full_events :
  events (luaZE_pushlclosure sz 2 L0_full) =
  [EvLock; EvCheckGC; EvGCStep; EvThrow LUA_ERRMEM; EvUnlock].
Proof. vm_compute. reflexivity. Qed.

Example push_full_result :
  res (luaZE_pushlclosure sz 2 L0_full) = Ok false L0_full.
Proof. vm_compute. reflexivity. Qed.

Example push_gcfault_result :
  res (luaZE_pushlclosure sz 2 L0_gcfault) = Ok false L0_gcfault.
Proof. vm_compute. reflexivity. Qed.

Example push_twice_stack :
  exists L', res (push_many sz 2 2 L0) = Ok [true; true] L' /\
    stack L' = [Some (TNumber 7); Some (TFunction 3); Some (TFunction 4); None] /\
    top L' = 3%nat.
Proof. eexists. split; [vm_compute; reflexivity | split; reflexivity]. Qed.

(** Outside a protected call the same fault aborts the host. *)
Example unprotected_fault_panics :
  res (pushlclosure_impl sz 2 L0_full) = Panic.
Proof. vm_compute. reflexivity. Qed.

Lemma L0_valid : valid_state L0.
Proof.
  split; [cbn; lia |]. split; [cbn; lia |].
  intros i Hi. cbn in Hi. destruct i as [|i]; [| lia].
  exists (TNumber 7). reflexivity.
Qed.

Lemma L0_registered : registered L0 2 P0.
Proof. vm_compute. reflexivity. Qed.

Lemma L0_full_registered : registered L0_full 2 P0.
Proof. vm_compute. reflexivity. Qed.

Lemma push_returns_true_pushes_closure_witness :
  exists L',
    valid_state L0 /\ registered L0 2 P0 /\
    res (luaZE_pushlclosure sz 2 L0) = Ok true L' /\
    lua_gettop L' = S (lua_gettop L0) /\
    exists cl c,
      stack L' !! (top L' - 1)%nat = Some (Some (TFunction cl)) /\
      heap L' !! cl = Some (GCClosure c) /\
      p c = Some 2%positive.
Proof.
  eexists. split; [exact L0_valid |]. split; [exact L0_registered |].
  split; [vm_compute; reflexivity |].
  apply (push_returns_true_pushes_closure sz 2%positive P0 L0);
    [exact L0_valid | exact L0_registered | vm_compute; reflexivity].
Defined.

Lemma push_returns_false_leaves_stack_witness :
  res (luaZE_pushlclosure sz 2 L0_full) = Ok false L0_full /\
  top L0_full = top L0_full /\ lua_gettop L0_full = lua_gettop L0_full /\
  stack L0_full = stack L0_full /\ L0_full = L0_full /\
  Forall (fun o => top (snd o) = top L0_full /\ stack (snd o) = stack L0_full)
         (log (luaZE_pushlclosure sz 2 L0_full)).
Proof.
  split; [vm_compute; reflexivity |].
  apply (push_returns_false_leaves_stack sz 2%positive L0_full L0_full).
  vm_compute. reflexivity.
Defined.

Lemma pushed_closure_shape_witness :
  exists L',
    res (luaZE_pushlclosure sz 2 L0) = Ok true L' /\
    exists cl c,
      EvAlloc cl ∈ events (luaZE_pushlclosure sz 2 L0) /\
      heap L0 !! cl = None /\
      heap L' !! cl = Some (GCClosure c) /\
      nupvalues c = 0 /\ upvals c = [] /\
      g c = gt L0 /\ gt L' = gt L0 /\
      p c = Some 2%positive /\
      (forall a, a <> cl -> heap L' !! a = heap L0 !! a).
Proof.
  eexists. split; [vm_compute; reflexivity |].
  apply (pushed_closure_shape sz 2%positive L0).
  vm_compute. reflexivity.
Defined.

Lemma prototype_not_mutated_witness :
  registered L0_full 2 P0 /\
  Forall (fun o => registered (snd o) 2 P0)
         (log (luaZE_pushlclosure sz 2 L0_full)) /\
  exists b L',
    res (luaZE_pushlclosure sz 2 L0_full) = Ok b L' /\ registered L' 2 P0.
Proof.
  split; [exact L0_full_registered |].
  apply (prototype_not_mutated sz 2%positive P0 L0_full).
  exact L0_full_registered.
Defined.


Lemma store_precedes_advance_witness :
  slots_written L0 /\ (top L0 < length (stack L0))%nat /\
  Forall (fun o => slots_written (snd o)) (log (pushlclosure_impl sz 2 L0)) /\
  (forall pre post,
     events (pushlclosure_impl sz 2 L0) = pre ++ EvIncrTop :: post ->
     exists cl, EvStore (top L0) (TFunction cl) ∈ pre).
Proof.
  split; [apply L0_valid |]. split; [cbn; lia |].
  apply (store_precedes_advance sz 2%positive L0); [apply L0_valid | cbn; lia].
Defined.



Lemma unprotected_sequence_aborts_witness :
  errorJmp L0_full = O /\
  res (luaZE_pushlclosure sz 2 L0_full) = Ok false L0_full /\
  res (pushlclosure_impl sz 2 L0_full) = Panic.
Proof.
  split; [reflexivity |]. split; [vm_compute; reflexivity |].
  apply (unprotected_sequence_aborts sz 2%positive L0_full);
    [reflexivity | vm_compute; reflexivity].
Defined.
